(** * TextAnimate: a shallow embedding of [text-animate.tsx]

    The component splits its text into segments, selects a pair of animation
    descriptors (container, item) and hands every segment its stagger
    offsets.  Everything below is a pure function of the props, as in the
    source: the motion engine that plays the descriptors is external. *)

From Stdlib Require Import List NArith ZArith Lia Bool String Ascii.
From Stdlib Require Import Floats DecimalString DecimalN.
From Equations Require Import Equations.
Import ListNotations.

(** ** JavaScript strings

    A JavaScript string is a sequence of UTF-16 code units; [split] and a
    regular expression without the [u] flag work on code units. *)

Definition code_unit := N.
Definition js_string := list code_unit.

(** Literals of the development are ASCII; [js] reads them as code units. *)
Definition js (s : string) : js_string :=
  List.map N_of_ascii (list_ascii_of_string s).

(** The character class [\s]: ECMAScript's WhiteSpace and LineTerminator. *)
Definition is_white_space (c : code_unit) : bool :=
  ((9 <=? c) && (c <=? 13)          (* TAB LF VT FF CR *)
   || (c =? 32)                     (* SPACE *)
   || (c =? 160)                    (* NO-BREAK SPACE *)
   || (c =? 5760)                   (* U+1680 *)
   || ((8192 <=? c) && (c <=? 8202))  (* U+2000 .. U+200A *)
   || (c =? 8232) || (c =? 8233)    (* LINE / PARAGRAPH SEPARATOR *)
   || (c =? 8239) || (c =? 8287)    (* U+202F, U+205F *)
   || (c =? 12288)                  (* U+3000 *)
   || (c =? 65279))%N.              (* U+FEFF *)

Definition LF : code_unit := 10%N.

(** *** [String.prototype.split] with the regular expression [/(\s+)/]

    [RegExp.prototype[Symbol.split]] keeps two positions in the subject:
    [p], the start of the piece being collected, and [q], where the sticky
    match is tried.  Below [tok] is the subject between [p] and [q] and the
    second argument is the subject from [q] on. *)

(** The greedy loop of [\s+]: the longest run of white space at the front. *)
Fixpoint white_space_run (s : js_string) : js_string * js_string :=
  match s with
  | c :: r =>
      if is_white_space c
      then let (run, rest) := white_space_run r in (c :: run, rest)
      else ([], s)
  | [] => ([], [])
  end.

(** A sticky match of [(\s+)] at the front of [s]: the captured run and what
    follows it, or [None] when the first code unit is not white space. *)
Definition regexp_exec_white_space (s : js_string)
  : option (js_string * js_string) :=
  match white_space_run s with
  | ([], _) => None
  | (run, rest) => Some (run, rest)
  end.

(** A value together with the equation that names it, for the termination
    argument of the loop. *)
Definition inspect {A : Type} (a : A) : {b : A | a = b} := exist _ a eq_refl.

Equations? split_loop (tok : js_string) (s : js_string) : list js_string
  by wf (List.length s) lt :=
  split_loop tok [] := [tok];
  split_loop tok (c :: r) with inspect (regexp_exec_white_space (c :: r)) := {
    | exist _ None _ := split_loop (tok ++ [c]) r;
    | exist _ (Some (run, rest)) E := tok :: run :: split_loop [] rest }.
Proof.
  (* the match consumed [c] at least, so [rest] is shorter than [c :: r] *)
  assert (G : forall s, List.length (snd (white_space_run s)) <= List.length s).
  { induction s as [|d s' IH]; simpl; [lia|].
    destruct (is_white_space d); [|simpl; lia].
    destruct (white_space_run s'); simpl in *; lia. }
  unfold regexp_exec_white_space in E. simpl in E.
  destruct (is_white_space c); [|discriminate].
  specialize (G r). destruct (white_space_run r) as [run' rest'].
  injection E as _ <-. simpl in G. lia.
Qed.

(** [children.split(/(\s+)/)]: the empty subject is a case of its own; the
    expression does not match it, so the result is the subject alone. *)
Definition split_white_space (s : js_string) : list js_string :=
  match s with
  | [] => [[]]
  | _ => split_loop [] s
  end.

(** [children.split("\n")]: a separator of one code unit.  Every occurrence
    ends the piece being collected and is itself dropped. *)
Fixpoint split_on_loop (sep : code_unit) (tok s : js_string) : list js_string :=
  match s with
  | [] => [tok]
  | c :: r =>
      if (c =? sep)%N then tok :: split_on_loop sep [] r
      else split_on_loop sep (tok ++ [c]) r
  end.

Definition split_on (sep : code_unit) (s : js_string) : list js_string :=
  match s with
  | [] => [[]]
  | _ => split_on_loop sep [] s
  end.

(** [children.split("")]: one piece per code unit, none for the empty
    subject. *)
Definition split_code_units (s : js_string) : list js_string :=
  List.map (fun c => [c]) s.

(** ** The segmenter *)

Inductive AnimationType := text | word | character | line.

Definition segments_of (by_ : AnimationType) (children : js_string)
  : list js_string :=
  match by_ with
  | word => split_white_space children
  | character => split_code_units children
  | line => split_on LF children
  | text => [children]
  end.

(** ** Numbers

    JavaScript numbers are binary64 floats.  Indices and lengths of arrays are
    integers below 2^32, on which the float arithmetic of the source
    ([segments.length - i - 1]) is exact: they are computed in [Z] and enter
    float arithmetic through [number_of_index]. *)

Set Warnings "-inexact-float".

Definition number := float.

(** Only indices from [0] on are converted. *)
Definition number_of_index (i : Z) : number :=
  PrimFloat.of_uint63 (Uint63.of_Z i).

(** A parameter with a default value: [undefined] takes the default. *)
Definition or_default {A : Type} (o : option A) (d : A) : A :=
  match o with
  | Some v => v
  | None => d
  end.

(** ** The descriptors handed to the motion engine

    Object literals of the source, with the keys the source writes.  A key
    that a literal leaves out, or whose value is [undefined], is [None]. *)

(** The timing of one animated property ([y: { duration: 0.3 }],
    [scale: { type: "spring", ... }]). *)
Record ValueTransition := {
  vt_duration : option number;
  vt_type : option string;
  vt_damping : option number;
  vt_stiffness : option number }.

Record Transition := {
  t_delay : option number;
  t_duration : option number;
  t_when : option string;
  t_y : option ValueTransition;
  t_opacity : option ValueTransition;
  t_filter : option ValueTransition;
  t_scale : option ValueTransition }.

(** The visual state an element animates to. *)
Record Target := {
  opacity : option number;
  x : option number;
  y : option number;
  scale : option number;
  filter : option string;
  transition : option Transition }.

(** The [custom] object of an element.  The container is given
    [{delay, exitDelay}], a segment [{entryStaggerDelay, exitStaggerDelay}];
    a resolver destructures the keys it wants and reads [undefined] for the
    others. *)
Record Custom := {
  custom_delay : option number;
  custom_exitDelay : option number;
  entryStaggerDelay : option number;
  exitStaggerDelay : option number }.

(** A variant is a target or a function from [custom] to a target. *)
Inductive Variant :=
| Static (t : Target)
| Resolver (f : Custom -> Target).

(** The labels the component uses: [initial="hidden"], ["show"], ["exit"]. *)
Record Variants := {
  hidden : Variant;
  show : Variant;
  exit : Variant }.

Record VariantSet := {
  container : Variants;
  item : Variants }.

(** What the engine animates to for a label: a resolver is called with the
    element's [custom]. *)
Definition resolve (v : Variant) (c : Custom) : Target :=
  match v with
  | Static t => t
  | Resolver f => f c
  end.

(** [{...v}]: the own enumerable properties of [v]; a function has none. *)
Definition no_target : Target :=
  {| opacity := None; x := None; y := None; scale := None; filter := None;
     transition := None |}.

Definition spread (v : Variant) : Target :=
  match v with
  | Static t => t
  | Resolver _ => no_target
  end.

(** [{...t, transition: tr}] *)
Definition with_transition (t : Target) (tr : Transition) : Target :=
  {| opacity := opacity t; x := x t; y := y t; scale := scale t;
     filter := filter t; transition := Some tr |}.

(** [{ delay: d, when: w }] *)
Definition delay_when (d : option number) (w : string) : Transition :=
  {| t_delay := d; t_duration := None; t_when := Some w;
     t_y := None; t_opacity := None; t_filter := None; t_scale := None |}.

(** [{ delay: d, duration: u }] *)
Definition delay_duration (d : option number) (u : number) : Transition :=
  {| t_delay := d; t_duration := Some u; t_when := None;
     t_y := None; t_opacity := None; t_filter := None; t_scale := None |}.

(** [{ duration: u }] *)
Definition lasting (u : number) : ValueTransition :=
  {| vt_duration := Some u; vt_type := None; vt_damping := None;
     vt_stiffness := None |}.

Section Presets.
Local Open Scope float_scope.
Local Open Scope string_scope.

Definition staggerTimings (by_ : AnimationType) : number :=
  match by_ with
  | text => 0.06
  | word => 0.05
  | character => 0.03
  | line => 0.06
  end.

Definition defaultContainerVariants : Variants :=
  {| hidden := Static {| opacity := Some 1; x := None; y := None;
                         scale := None; filter := None; transition := None |};
     show := Resolver (fun c =>
       {| opacity := Some 1; x := None; y := None; scale := None;
          filter := None;
          transition := Some (delay_when (custom_delay c) "beforeChildren") |});
     exit := Resolver (fun c =>
       {| opacity := Some 0; x := None; y := None; scale := None;
          filter := None;
          transition := Some (delay_when (custom_exitDelay c) "afterChildren") |})
  |}.

Definition defaultItemVariants : Variants :=
  {| hidden := Static {| opacity := Some 0; x := None; y := None;
                         scale := None; filter := None; transition := None |};
     show := Static {| opacity := Some 1; x := None; y := None;
                       scale := None; filter := None; transition := None |};
     exit := Static {| opacity := Some 0; x := None; y := None;
                       scale := None; filter := None; transition := None |} |}.

(** The per-property timing shared by the literals of [blurInUp] and
    [blurInDown]: [y: {duration: 0.3}, opacity: {duration: 0.4},
    filter: {duration: 0.3}], with the [delay] and [duration] keys the
    literal has. *)
Definition blur_timing (d u : option number) : Transition :=
  {| t_delay := d; t_duration := u; t_when := None;
     t_y := Some (lasting 0.3); t_opacity := Some (lasting 0.4);
     t_filter := Some (lasting 0.3); t_scale := None |}.

(** [{ delay: d, duration: 0.3,
       scale: { type: "spring", damping: 15, stiffness: 300 } }] *)
Definition spring_timing (d : option number) : Transition :=
  {| t_delay := d; t_duration := Some 0.3; t_when := None;
     t_y := None; t_opacity := None; t_filter := None;
     t_scale := Some {| vt_duration := None; vt_type := Some "spring";
                        vt_damping := Some 15; vt_stiffness := Some 300 |} |}.

Inductive AnimationVariant :=
| fadeIn | blurIn | blurInUp | blurInDown | slideUp | slideDown
| slideLeft | slideRight | scaleUp | scaleDown.

Definition defaultItemAnimationVariants (a : AnimationVariant) : VariantSet :=
  match a with
  | fadeIn =>
      {| container := defaultContainerVariants;
         item :=
           {| hidden := Static
                {| opacity := Some 0; x := None; y := Some 20; scale := None;
                   filter := None; transition := None |};
              show := Resolver (fun c =>
                {| opacity := Some 1; x := None; y := Some 0; scale := None;
                   filter := None;
                   transition :=
                     Some (delay_duration (entryStaggerDelay c) 0.3) |});
              exit := Resolver (fun c =>
                {| opacity := Some 0; x := None; y := Some 20; scale := None;
                   filter := None;
                   transition :=
                     Some (delay_duration (exitStaggerDelay c) 0.3) |}) |} |}
  | blurIn =>
      {| container := defaultContainerVariants;
         item :=
           {| hidden := Static
                {| opacity := Some 0; x := None; y := None; scale := None;
                   filter := Some "blur(10px)"; transition := None |};
              show := Resolver (fun c =>
                {| opacity := Some 1; x := None; y := None; scale := None;
                   filter := Some "blur(0px)";
                   transition :=
                     Some (delay_duration (entryStaggerDelay c) 0.3) |});
              exit := Resolver (fun c =>
                {| opacity := Some 0; x := None; y := None; scale := None;
                   filter := Some "blur(10px)";
                   transition :=
                     Some (delay_duration (exitStaggerDelay c) 0.3) |}) |} |}
  | blurInUp =>
      {| container := defaultContainerVariants;
         item :=
           {| hidden := Static
                {| opacity := Some 0; x := None; y := Some 20; scale := None;
                   filter := Some "blur(10px)"; transition := None |};
              show := Resolver (fun c =>
                {| opacity := Some 1; x := None; y := Some 0; scale := None;
                   filter := Some "blur(0px)";
                   transition :=
                     Some (blur_timing (entryStaggerDelay c) (Some 0.3)) |});
              exit := Resolver (fun c =>
                {| opacity := Some 0; x := None; y := Some 20; scale := None;
                   filter := Some "blur(10px)";
                   transition :=
                     Some (blur_timing (exitStaggerDelay c) (Some 0.3)) |}) |} |}
  | blurInDown =>
      {| container := defaultContainerVariants;
         item :=
           {| hidden := Static
                {| opacity := Some 0; x := None; y := Some (-20); scale := None;
                   filter := Some "blur(10px)"; transition := None |};
              (* the literal has neither a [delay] nor a [duration] key *)
              show := Resolver (fun c =>
                {| opacity := Some 1; x := None; y := Some 0; scale := None;
                   filter := Some "blur(0px)";
                   transition := Some (blur_timing None None) |});
              exit := Resolver (fun c =>
                {| opacity := Some 0; x := None; y := Some (-20); scale := None;
                   filter := Some "blur(10px)";
                   transition :=
                     Some (blur_timing (exitStaggerDelay c) (Some 0.3)) |}) |} |}
  | slideUp =>
      {| container := defaultContainerVariants;
         item :=
           {| hidden := Static
                {| opacity := Some 0; x := None; y := Some 20; scale := None;
                   filter := None; transition := None |};
              show := Resolver (fun c =>
                {| opacity := Some 1; x := None; y := Some 0; scale := None;
                   filter := None;
                   transition :=
                     Some (delay_duration (entryStaggerDelay c) 0.3) |});
              exit := Resolver (fun c =>
                {| opacity := Some 0; x := None; y := Some (-20); scale := None;
                   filter := None;
                   transition :=
                     Some (delay_duration (exitStaggerDelay c) 0.3) |}) |} |}
  | slideDown =>
      {| container := defaultContainerVariants;
         item :=
           {| hidden := Static
                {| opacity := Some 0; x := None; y := Some (-20); scale := None;
                   filter := None; transition := None |};
              show := Resolver (fun c =>
                {| opacity := Some 1; x := None; y := Some 0; scale := None;
                   filter := None;
                   transition :=
                     Some (delay_duration (entryStaggerDelay c) 0.3) |});
              exit := Resolver (fun c =>
                {| opacity := Some 0; x := None; y := Some 20; scale := None;
                   filter := None;
                   transition :=
                     Some (delay_duration (exitStaggerDelay c) 0.3) |}) |} |}
  | slideLeft =>
      {| container := defaultContainerVariants;
         item :=
           {| hidden := Static
                {| opacity := Some 0; x := Some 20; y := None; scale := None;
                   filter := None; transition := None |};
              show := Resolver (fun c =>
                {| opacity := Some 1; x := Some 0; y := None; scale := None;
                   filter := None;
                   transition :=
                     Some (delay_duration (entryStaggerDelay c) 0.3) |});
              exit := Resolver (fun c =>
                {| opacity := Some 0; x := Some (-20); y := None; scale := None;
                   filter := None;
                   transition :=
                     Some (delay_duration (exitStaggerDelay c) 0.3) |}) |} |}
  | slideRight =>
      {| container := defaultContainerVariants;
         item :=
           {| hidden := Static
                {| opacity := Some 0; x := Some (-20); y := None; scale := None;
                   filter := None; transition := None |};
              show := Resolver (fun c =>
                {| opacity := Some 1; x := Some 0; y := None; scale := None;
                   filter := None;
                   transition :=
                     Some (delay_duration (entryStaggerDelay c) 0.3) |});
              exit := Resolver (fun c =>
                {| opacity := Some 0; x := Some 20; y := None; scale := None;
                   filter := None;
                   transition :=
                     Some (delay_duration (exitStaggerDelay c) 0.3) |}) |} |}
  | scaleUp =>
      {| container := defaultContainerVariants;
         item :=
           {| hidden := Static
                {| opacity := Some 0; x := None; y := None; scale := Some 0.5;
                   filter := None; transition := None |};
              show := Resolver (fun c =>
                {| opacity := Some 1; x := None; y := None; scale := Some 1;
                   filter := None;
                   transition := Some (spring_timing (entryStaggerDelay c)) |});
              exit := Resolver (fun c =>
                {| opacity := Some 0; x := None; y := None; scale := Some 0.5;
                   filter := None;
                   transition :=
                     Some (delay_duration (exitStaggerDelay c) 0.3) |}) |} |}
  | scaleDown =>
      {| container := defaultContainerVariants;
         item :=
           {| hidden := Static
                {| opacity := Some 0; x := None; y := None; scale := Some 1.5;
                   filter := None; transition := None |};
              show := Resolver (fun c =>
                {| opacity := Some 1; x := None; y := None; scale := Some 1;
                   filter := None;
                   transition := Some (spring_timing (entryStaggerDelay c)) |});
              exit := Resolver (fun c =>
                {| opacity := Some 0; x := None; y := None; scale := Some 1.5;
                   filter := None;
                   transition :=
                     Some (delay_duration (exitStaggerDelay c) 0.3) |}) |} |}
  end.

End Presets.

(** ** The component *)

(** [segmentClassName]: one class for every segment, or a function of the
    segment and its index. *)
Inductive SegmentClassName :=
| ClassString (s : string)
| ClassFunction (f : js_string -> Z -> string).

(** What a caller may pass for [initial], [whileInView], [animate] and
    [exit]: a key whose value is [undefined], a variant label, a boolean or
    a target. *)
Inductive MotionValue :=
| Undefined
| Label (s : string)
| Flag (b : bool)
| TargetValue (t : Target).

(** [viewport]: the component writes [{ once: once }]; the other options of
    the engine are not written by the source and are left out. *)
Record ViewportOptions := {
  viewport_once : option bool }.

(** The rest of the props, [...props]: the [MotionProps] that the parameter
    list does not name.  The element spreads them after the attributes it
    writes, so those with the name of a written attribute replace it: these
    are the keys kept here, [None] for a key the caller did not pass.  A
    [custom] that is passed is an object, read through the keys the
    resolvers destructure.  The other [MotionProps] meet no attribute of the
    source and reach the engine as they are. *)
Record MotionProps := {
  rest_initial : option MotionValue;
  rest_custom : option Custom;
  rest_whileInView : option MotionValue;
  rest_animate : option MotionValue;
  rest_viewport : option ViewportOptions;
  rest_exit : option MotionValue }.

(** The props of the source; an optional prop that the caller leaves out is
    [None]. *)
Record TextAnimateProps := {
  children : js_string;
  className : option string;
  segmentClassName : option SegmentClassName;
  delay : option number;
  exitDelay : option number;
  duration : option number;
  variants : option Variants;
  as_ : option string;
  by_ : option AnimationType;
  staggerChildren : option number;
  startOnView : option bool;
  once : option bool;
  animation : option AnimationVariant;
  rest_props : MotionProps }.

(** One [<motion.span>] per segment.  [cn] belongs to another module: a
    class name is kept as the list of arguments [cn] is called with. *)
Record MotionSpan := {
  span_key : AnimationType * js_string * Z;
  span_variants : Variants;
  span_custom : Custom;
  span_className : list (option string);
  span_children : js_string }.

(** The [<MotionComponent>] that wraps the segments: the attributes in the
    order the source writes them, then the spread [{...props}], then the
    children. *)
Record MotionElement := {
  el_component : string;
  el_variants : Variants;
  el_initial : string;
  el_custom : Custom;
  el_whileInView : option string;
  el_animate : option string;
  el_viewport_once : bool;
  el_exit : string;
  el_className : list (option string);
  el_rest : MotionProps;
  el_children : list MotionSpan }.

(** The attributes the engine receives for the keys that the spread may
    replace: the value of the spread when it has the key, the written one
    otherwise. *)
Definition label_value (o : option string) : MotionValue :=
  match o with
  | Some s => Label s
  | None => Undefined
  end.

Definition received_initial (el : MotionElement) : MotionValue :=
  or_default (rest_initial (el_rest el)) (Label (el_initial el)).

Definition received_custom (el : MotionElement) : Custom :=
  or_default (rest_custom (el_rest el)) (el_custom el).

Definition received_whileInView (el : MotionElement) : MotionValue :=
  or_default (rest_whileInView (el_rest el)) (label_value (el_whileInView el)).

Definition received_animate (el : MotionElement) : MotionValue :=
  or_default (rest_animate (el_rest el)) (label_value (el_animate el)).

Definition received_viewport (el : MotionElement) : ViewportOptions :=
  or_default (rest_viewport (el_rest el))
    {| viewport_once := Some (el_viewport_once el) |}.

Definition received_exit (el : MotionElement) : MotionValue :=
  or_default (rest_exit (el_rest el)) (Label (el_exit el)).

(** [AnimationVariant] is a union of string literals; the source tests the
    value for truthiness, and a string is falsy when it is empty. *)
Definition animation_name (a : AnimationVariant) : string :=
  match a with
  | fadeIn => "fadeIn" | blurIn => "blurIn" | blurInUp => "blurInUp"
  | blurInDown => "blurInDown" | slideUp => "slideUp"
  | slideDown => "slideDown" | slideLeft => "slideLeft"
  | slideRight => "slideRight" | scaleUp => "scaleUp"
  | scaleDown => "scaleDown"
  end.

Definition truthy (s : string) : bool := negb (String.eqb s "").

(** [array.map((a, i) => f a i)], the indices counted from [i]. *)
Fixpoint map_indexed {A B : Type} (f : A -> Z -> B) (i : Z) (l : list A)
  : list B :=
  match l with
  | [] => []
  | a :: r => f a i :: map_indexed f (i + 1) r
  end.

(** The [finalVariants] of the source.  It reads [animation] and nothing
    else: neither [variants] nor [duration] occurs in it. *)
Definition finalVariants (animation : AnimationVariant) : VariantSet :=
  if truthy (animation_name animation)
  then
    {| container :=
         {| hidden := hidden (container (defaultItemAnimationVariants animation));
            show := Resolver (fun c =>
              with_transition
                (spread (show (container (defaultItemAnimationVariants animation))))
                (delay_when (custom_delay c) "beforeChildren"));
            exit := Resolver (fun c =>
              with_transition
                (spread (exit (container (defaultItemAnimationVariants animation))))
                (delay_when (custom_exitDelay c) "afterChildren")) |};
       item := item (defaultItemAnimationVariants animation) |}
  else
    {| container := defaultContainerVariants; item := defaultItemVariants |}.

(** The parameter defaults of [TextAnimate], in the order of the source:
    [by] is settled before [staggerChildren] reads it. *)
Definition effective_by (props : TextAnimateProps) : AnimationType :=
  or_default (by_ props) word.

Definition effective_staggerChildren (props : TextAnimateProps) : number :=
  or_default (staggerChildren props) (staggerTimings (effective_by props)).

Definition effective_animation (props : TextAnimateProps) : AnimationVariant :=
  or_default (animation props) fadeIn.

(** The [custom] of the segment at index [i] out of [n]. *)
Definition segment_custom (staggerChildren : number) (n i : Z) : Custom :=
  {| custom_delay := None; custom_exitDelay := None;
     entryStaggerDelay := Some (number_of_index i * staggerChildren)%float;
     exitStaggerDelay :=
       Some (number_of_index (n - i - 1) * staggerChildren)%float |}.

Definition TextAnimate (props : TextAnimateProps) : MotionElement :=
  let children := children props in
  let delay := or_default (delay props) 0%float in
  let exitDelay := or_default (exitDelay props) 0%float in
  let duration := or_default (duration props) 0.3%float in
  let variants := variants props in
  let className := className props in
  let segmentClassName := segmentClassName props in
  let Component := or_default (as_ props) "span"%string in
  let startOnView := or_default (startOnView props) true in
  let once := or_default (once props) false in
  let by_ := effective_by props in
  let staggerChildren := effective_staggerChildren props in
  let animation := effective_animation props in
  let finalVariants := finalVariants animation in
  let segments := segments_of by_ children in
  {| el_component := Component;
     el_variants := container finalVariants;
     el_initial := "hidden";
     el_custom :=
       {| custom_delay := Some delay; custom_exitDelay := Some exitDelay;
          entryStaggerDelay := None; exitStaggerDelay := None |};
     el_whileInView := if startOnView then Some "show"%string else None;
     el_animate := if startOnView then None else Some "show"%string;
     el_viewport_once := once;
     el_exit := "exit";
     el_className := [Some "whitespace-pre-wrap"%string; className];
     el_rest := rest_props props;
     el_children :=
       map_indexed
         (fun segment i =>
            {| span_key := (by_, segment, i);
               span_variants := item finalVariants;
               span_custom :=
                 segment_custom staggerChildren
                   (Z.of_nat (List.length segments)) i;
               span_className :=
                 [Some (match by_ with
                        | line => "block"
                        | _ => "inline-block whitespace-pre"
                        end)%string;
                  match segmentClassName with
                  | Some (ClassFunction f) => Some (f segment i)
                  | Some (ClassString s) => Some s
                  | None => None
                  end];
               span_children := segment |})
         0%Z segments |}.

(** ** Vocabulary of the properties *)

(** [Array.prototype.join] with a separator of one code unit. *)
Fixpoint join (sep : code_unit) (l : list js_string) : js_string :=
  match l with
  | [] => []
  | [s] => s
  | s :: r => s ++ sep :: join sep r
  end.

Definition no_white_space (s : js_string) : bool :=
  forallb (fun c => negb (is_white_space c)) s.

Definition white_space_only (s : js_string) : bool :=
  match s with
  | [] => false
  | _ => forallb is_white_space s
  end.

(** The shape of a word segmentation: pieces without white space at the even
    indices, non-empty runs of white space at the odd ones, and a non-empty
    piece between two runs (the runs are maximal). *)
Fixpoint word_shape_after_run (l : list js_string) : bool :=
  match l with
  | [tok] => no_white_space tok
  | tok :: run :: r =>
      no_white_space tok && negb (Nat.eqb (List.length tok) 0)
      && white_space_only run && word_shape_after_run r
  | [] => false
  end.

Definition word_shape (l : list js_string) : bool :=
  match l with
  | [tok] => no_white_space tok
  | tok :: run :: r =>
      no_white_space tok && white_space_only run && word_shape_after_run r
  | [] => false
  end.

(** White space and other code units alternate one by one. *)
Fixpoint alternating (s : js_string) : bool :=
  match s with
  | c :: (d :: _) as r =>
      xorb (is_white_space c) (is_white_space d) && alternating r
  | _ => true
  end.

(** No prop beyond the ones the parameter list names. *)
Definition no_rest : MotionProps :=
  {| rest_initial := None; rest_custom := None; rest_whileInView := None;
     rest_animate := None; rest_viewport := None; rest_exit := None |}.

(** The props of a caller that gives the text and nothing else. *)
Definition text_only (t : js_string) : TextAnimateProps :=
  {| children := t; className := None; segmentClassName := None;
     delay := None; exitDelay := None; duration := None; variants := None;
     as_ := None; by_ := None; staggerChildren := None; startOnView := None;
     once := None; animation := None; rest_props := no_rest |}.

(** The same props with another [duration], [variants], [by],
    [staggerChildren] or [animation]. *)
Definition set_duration (d : option number) (p : TextAnimateProps)
  : TextAnimateProps :=
  {| children := children p; className := className p;
     segmentClassName := segmentClassName p; delay := delay p;
     exitDelay := exitDelay p; duration := d; variants := variants p;
     as_ := as_ p; by_ := by_ p; staggerChildren := staggerChildren p;
     startOnView := startOnView p; once := once p;
     animation := animation p; rest_props := rest_props p |}.

Definition set_variants (v : option Variants) (p : TextAnimateProps)
  : TextAnimateProps :=
  {| children := children p; className := className p;
     segmentClassName := segmentClassName p; delay := delay p;
     exitDelay := exitDelay p; duration := duration p; variants := v;
     as_ := as_ p; by_ := by_ p; staggerChildren := staggerChildren p;
     startOnView := startOnView p; once := once p;
     animation := animation p; rest_props := rest_props p |}.

Definition set_by (b : option AnimationType) (p : TextAnimateProps)
  : TextAnimateProps :=
  {| children := children p; className := className p;
     segmentClassName := segmentClassName p; delay := delay p;
     exitDelay := exitDelay p; duration := duration p;
     variants := variants p; as_ := as_ p; by_ := b;
     staggerChildren := staggerChildren p; startOnView := startOnView p;
     once := once p; animation := animation p;
     rest_props := rest_props p |}.

Definition set_staggerChildren (s : option number) (p : TextAnimateProps)
  : TextAnimateProps :=
  {| children := children p; className := className p;
     segmentClassName := segmentClassName p; delay := delay p;
     exitDelay := exitDelay p; duration := duration p;
     variants := variants p; as_ := as_ p; by_ := by_ p;
     staggerChildren := s; startOnView := startOnView p;
     once := once p; animation := animation p;
     rest_props := rest_props p |}.

Definition set_animation (a : option AnimationVariant) (p : TextAnimateProps)
  : TextAnimateProps :=
  {| children := children p; className := className p;
     segmentClassName := segmentClassName p; delay := delay p;
     exitDelay := exitDelay p; duration := duration p;
     variants := variants p; as_ := as_ p; by_ := by_ p;
     staggerChildren := staggerChildren p; startOnView := startOnView p;
     once := once p; animation := a; rest_props := rest_props p |}.

(** The same props with another [delay] and another [custom] among the
    rest of the props. *)
Definition props_with_delay (d : option number) (c : option Custom)
    (p : TextAnimateProps) : TextAnimateProps :=
  {| children := children p; className := className p;
     segmentClassName := segmentClassName p; delay := d;
     exitDelay := exitDelay p; duration := duration p;
     variants := variants p; as_ := as_ p; by_ := by_ p;
     staggerChildren := staggerChildren p; startOnView := startOnView p;
     once := once p; animation := animation p;
     rest_props :=
       {| rest_initial := rest_initial (rest_props p); rest_custom := c;
          rest_whileInView := rest_whileInView (rest_props p);
          rest_animate := rest_animate (rest_props p);
          rest_viewport := rest_viewport (rest_props p);
          rest_exit := rest_exit (rest_props p) |} |}.

(** The [delay] and the [duration] of the transition a variant resolves to
    ([None] for a key that is not there). *)
Definition timing_of (v : Variant) (c : Custom)
  : option number * option number :=
  match transition (resolve v c) with
  | Some tr => (t_delay tr, t_duration tr)
  | None => (None, None)
  end.

(** The [custom] of a segment with the offsets [e] and [x]. *)
Definition offsets (e x : number) : Custom :=
  {| custom_delay := None; custom_exitDelay := None;
     entryStaggerDelay := Some e; exitStaggerDelay := Some x |}.

(** Custom variants a caller may pass: opacity only, no movement. *)
Definition opacity_only_variants : Variants :=
  {| hidden := Static {| opacity := Some 0%float; x := None; y := None;
                         scale := None; filter := None; transition := None |};
     show := Static {| opacity := Some 1%float; x := None; y := None;
                       scale := None; filter := None; transition := None |};
     exit := Static {| opacity := Some 0%float; x := None; y := None;
                       scale := None; filter := None; transition := None |} |}.

(** The longest prefix of code units that satisfy [f]. *)
Fixpoint take_while (f : code_unit -> bool) (s : js_string) : js_string :=
  match s with
  | c :: r => if f c then c :: take_while f r else []
  | [] => []
  end.

(** The number of maximal runs of white space in a text; [inside] tells that
    the code unit before was white space. *)
Fixpoint white_space_runs (inside : bool) (s : js_string) : nat :=
  match s with
  | c :: r =>
      (if is_white_space c && negb inside then 1 else 0)
      + white_space_runs (is_white_space c) r
  | [] => 0
  end.

(** The number of occurrences of a code unit. *)
Definition occurrences (sep : code_unit) (s : js_string) : nat :=
  List.length (List.filter (fun c => (c =? sep)%N) s).

(** The React key of a segment as the template literal writes it,
    [`${by}-${segment}-${i}`]: the name of the granularity, the segment and
    the index in decimal, with hyphens between them. *)
Definition animation_type_name (b : AnimationType) : string :=
  match b with
  | text => "text"
  | word => "word"
  | character => "character"
  | line => "line"
  end.

Definition HYPHEN : code_unit := 45%N.

Definition index_to_string (i : Z) : js_string :=
  js (DecimalString.NilEmpty.string_of_uint (N.to_uint (Z.to_N i))).

Definition key_string (k : AnimationType * js_string * Z) : js_string :=
  let '(b, segment, i) := k in
  js (animation_type_name b) ++ HYPHEN :: segment ++ HYPHEN :: index_to_string i.

(** The keys other than [opacity] and [transition] that a target sets, in the
    order [x], [y], [scale], [filter]. *)
Definition is_set {A : Type} (o : option A) : bool :=
  match o with
  | Some _ => true
  | None => false
  end.

Definition moved_keys (t : Target) : list bool :=
  [is_set (x t); is_set (y t); is_set (scale t); is_set (filter t)].

(** The class arguments of the segment [segment] at index [i]. *)
Definition segment_classes (b : AnimationType)
    (c : option SegmentClassName) (segment : js_string) (i : Z)
  : list (option string) :=
  [Some (match b with
         | line => "block"
         | _ => "inline-block whitespace-pre"
         end)%string;
   match c with
   | Some (ClassFunction f) => Some (f segment i)
   | Some (ClassString s) => Some s
   | None => None
   end].

(** * Properties *)

(** ** The white-space splitter *)

Lemma white_space_run_app (s : js_string) :
  fst (white_space_run s) ++ snd (white_space_run s) = s.
Proof.
  induction s as [|c r IH]; simpl; [reflexivity|].
  destruct (is_white_space c); [|reflexivity].
  destruct (white_space_run r) as [run rest]; simpl in *.
  now rewrite IH.
Qed.

Lemma white_space_run_all (s : js_string) :
  forallb is_white_space (fst (white_space_run s)) = true.
Proof.
  induction s as [|c r IH]; simpl; [reflexivity|].
  destruct (is_white_space c) eqn:E; [|reflexivity].
  destruct (white_space_run r) as [run rest]; simpl in *.
  now rewrite E.
Qed.

(** The run is maximal: what follows it does not start with white space. *)
Lemma white_space_run_rest (s : js_string) :
  is_white_space (hd 0%N (snd (white_space_run s))) = false.
Proof.
  induction s as [|c r IH]; simpl; [reflexivity|].
  destruct (is_white_space c) eqn:E; [|exact E].
  destruct (white_space_run r) as [run rest]; simpl in *. exact IH.
Qed.

Lemma white_space_run_cons c r :
  is_white_space c = true ->
  exists run, fst (white_space_run (c :: r)) = c :: run.
Proof.
  intros E. simpl. rewrite E.
  destruct (white_space_run r) as [run rest]. now exists run.
Qed.

Lemma regexp_exec_white_space_cons c r :
  regexp_exec_white_space (c :: r) =
  if is_white_space c then Some (white_space_run (c :: r)) else None.
Proof.
  unfold regexp_exec_white_space. simpl.
  destruct (is_white_space c); [|reflexivity].
  now destruct (white_space_run r).
Qed.

Lemma split_loop_nil tok : split_loop tok [] = [tok].
Proof. now simp split_loop. Qed.

Lemma split_loop_cons tok c r :
  split_loop tok (c :: r) =
  if is_white_space c
  then tok :: fst (white_space_run (c :: r))
           :: split_loop [] (snd (white_space_run (c :: r)))
  else split_loop (tok ++ [c]) r.
Proof.
  simp split_loop.
  destruct (inspect (regexp_exec_white_space (c :: r))) as [[[run rest]|] E];
    simp split_loop; rewrite regexp_exec_white_space_cons in E;
    destruct (is_white_space c); try discriminate; [|reflexivity].
  assert (E' : white_space_run (c :: r) = (run, rest)) by congruence.
  rewrite E'. reflexivity.
Qed.

(** Induction along the iterations of the loop. *)
Lemma split_loop_rect (P : js_string -> js_string -> list js_string -> Prop) :
  (forall tok, P tok [] [tok]) ->
  (forall tok c r,
      is_white_space c = false ->
      P (tok ++ [c]) r (split_loop (tok ++ [c]) r) ->
      P tok (c :: r) (split_loop (tok ++ [c]) r)) ->
  (forall tok c r run rest,
      is_white_space c = true ->
      white_space_run (c :: r) = (c :: run, rest) ->
      P [] rest (split_loop [] rest) ->
      P tok (c :: r) (tok :: (c :: run) :: split_loop [] rest)) ->
  forall tok s, P tok s (split_loop tok s).
Proof.
  intros Hnil Htok Hrun tok s.
  remember (List.length s) as n eqn:En.
  revert tok s En.
  induction n as [n IH] using lt_wf_ind. intros tok [|c r] En.
  - rewrite split_loop_nil. apply Hnil.
  - rewrite split_loop_cons. destruct (is_white_space c) eqn:E.
    + destruct (white_space_run_cons c r E) as [run Erun].
      pose proof (white_space_run_app (c :: r)) as Happ.
      destruct (white_space_run (c :: r)) as [run' rest] eqn:Ew.
      simpl fst in *. simpl snd in *. subst run'.
      apply Hrun; [exact E|exact Ew|].
      apply (IH (List.length rest)); [|reflexivity].
      apply (f_equal (@List.length _)) in Happ.
      simpl in Happ. rewrite length_app in Happ. simpl in En. lia.
    + apply Htok; [exact E|].
      apply (IH (List.length r)); [|reflexivity]. simpl in En. lia.
Qed.

Lemma split_loop_concat tok s : List.concat (split_loop tok s) = tok ++ s.
Proof.
  apply (split_loop_rect (fun tok s l => List.concat l = tok ++ s)).
  - intros tok'. simpl. now rewrite app_nil_r.
  - intros tok' c r _ IH. rewrite IH, <- app_assoc. reflexivity.
  - intros tok' c r run rest _ Ew IH. simpl List.concat. rewrite IH. simpl.
    pose proof (white_space_run_app (c :: r)) as Happ. rewrite Ew in Happ.
    simpl in Happ. now rewrite Happ.
Qed.

Lemma no_white_space_snoc tok c :
  no_white_space tok = true -> is_white_space c = false ->
  no_white_space (tok ++ [c]) = true.
Proof.
  unfold no_white_space. intros Ht Hc. rewrite forallb_app, Ht. simpl.
  now rewrite Hc.
Qed.

Lemma split_loop_shape_after_run tok s :
  no_white_space tok = true ->
  (tok = [] -> is_white_space (hd 0%N s) = false) ->
  word_shape_after_run (split_loop tok s) = true.
Proof.
  apply (split_loop_rect (fun tok s l =>
    no_white_space tok = true ->
    (tok = [] -> is_white_space (hd 0%N s) = false) ->
    word_shape_after_run l = true)).
  - intros tok' Ht _. exact Ht.
  - intros tok' c r Hc IH Ht _. apply IH.
    + now apply no_white_space_snoc.
    + intros Hnil. now destruct tok'.
  - intros tok' c r run rest Hc Ew IH Ht Hhd.
    destruct tok' as [|d tok'].
    { specialize (Hhd eq_refl). simpl in Hhd. congruence. }
    cbn [word_shape_after_run]. rewrite Ht. simpl List.length. simpl negb.
    pose proof (white_space_run_all (c :: r)) as Hall.
    pose proof (white_space_run_rest (c :: r)) as Hrest.
    rewrite Ew in Hall, Hrest. simpl fst in Hall. simpl snd in Hrest.
    unfold white_space_only. rewrite Hall. simpl.
    apply IH; [reflexivity|intros _; exact Hrest].
Qed.

Lemma split_loop_shape tok s :
  no_white_space tok = true -> word_shape (split_loop tok s) = true.
Proof.
  apply (split_loop_rect (fun tok s l =>
    no_white_space tok = true -> word_shape l = true)).
  - intros tok' Ht. exact Ht.
  - intros tok' c r Hc IH Ht. apply IH. now apply no_white_space_snoc.
  - intros tok' c r run rest Hc Ew _ Ht.
    cbn [word_shape]. rewrite Ht.
    pose proof (white_space_run_all (c :: r)) as Hall.
    pose proof (white_space_run_rest (c :: r)) as Hrest.
    rewrite Ew in Hall, Hrest. simpl fst in Hall. simpl snd in Hrest.
    unfold white_space_only. rewrite Hall. simpl.
    apply split_loop_shape_after_run; [reflexivity|intros _; exact Hrest].
Qed.

(** C2. Segmenting with granularity [word] keeps everything: the segments,
    concatenated in order, are the input text, and the white-space runs are
    segments of their own (pieces without white space at the even indices,
    maximal non-empty runs of white space at the odd ones). *)
Theorem word_segments_rejoin (t : js_string) :
  List.concat (segments_of word t) = t /\
  word_shape (segments_of word t) = true.
Proof.
  unfold segments_of, split_white_space. destruct t as [|c r].
  - split; reflexivity.
  - split.
    + now rewrite split_loop_concat.
    + now apply split_loop_shape.
Qed.

(** ** The line splitter *)

Lemma split_on_loop_not_nil sep tok s : split_on_loop sep tok s <> [].
Proof.
  revert tok. induction s as [|c r IH]; intros tok; simpl; [discriminate|].
  destruct (c =? sep)%N; [discriminate|apply IH].
Qed.

Lemma split_on_loop_join sep tok s :
  join sep (split_on_loop sep tok s) = tok ++ s.
Proof.
  revert tok. induction s as [|c r IH]; intros tok; simpl.
  - now rewrite app_nil_r.
  - destruct (c =? sep)%N eqn:E.
    + apply N.eqb_eq in E. subst c.
      pose proof (split_on_loop_not_nil sep [] r) as Hne.
      specialize (IH []).
      destruct (split_on_loop sep [] r) as [|s l]; [congruence|].
      change (join sep (tok :: s :: l))
        with (tok ++ sep :: join sep (s :: l)).
      rewrite IH. reflexivity.
    + rewrite IH, <- app_assoc. reflexivity.
Qed.

Lemma split_on_loop_concat sep tok s :
  List.concat (split_on_loop sep tok s) =
  tok ++ List.filter (fun c => negb (c =? sep)%N) s.
Proof.
  revert tok. induction s as [|c r IH]; intros tok; simpl.
  - reflexivity.
  - destruct (c =? sep)%N; simpl.
    + now rewrite IH.
    + rewrite IH, <- app_assoc. reflexivity.
Qed.

Lemma split_on_loop_free sep tok s :
  ~ In sep tok ->
  Forall (fun piece => ~ In sep piece) (split_on_loop sep tok s).
Proof.
  revert tok. induction s as [|c r IH]; intros tok Ht; simpl.
  - constructor; [exact Ht|constructor].
  - destruct (c =? sep)%N eqn:E.
    + constructor; [exact Ht|]. apply IH. intros [].
    + apply IH. intros Hin. apply in_app_or in Hin as [Hin|[Hin|[]]].
      * now apply Ht.
      * subst c. now rewrite N.eqb_refl in E.
Qed.

(** Removing code units gives the list back only when none is removed. *)
Lemma filter_fixed {A : Type} (f : A -> bool) (l : list A) :
  List.filter f l = l <-> forallb f l = true.
Proof.
  induction l as [|a r IH]; simpl; [tauto|].
  destruct (f a) eqn:E; simpl.
  - rewrite <- IH. split; [now intros [= ->]|now intros ->].
  - split; [|discriminate]. intros H.
    pose proof (filter_length_le f r) as Hle.
    rewrite H in Hle. simpl in Hle. lia.
Qed.

Lemma forallb_differs sep (s : js_string) :
  forallb (fun c => negb (c =? sep)%N) s = true <-> ~ In sep s.
Proof.
  rewrite forallb_forall. split.
  - intros H Hin. specialize (H sep Hin). now rewrite N.eqb_refl in H.
  - intros H c Hin. destruct (c =? sep)%N eqn:E; [|reflexivity].
    apply N.eqb_eq in E. now subst c.
Qed.

(** C3, as the code has it. Segmenting with granularity [line] drops the
    newlines: no segment holds one, the segments joined with one newline
    between neighbours are the input text, and their plain concatenation is
    the input text without its newlines, hence the input text itself exactly
    when it has no newline. *)
Theorem line_segments_rejoin (t : js_string) :
  join LF (segments_of line t) = t /\
  Forall (fun piece => ~ In LF piece) (segments_of line t) /\
  List.concat (segments_of line t) =
    List.filter (fun c => negb (c =? LF)%N) t /\
  (List.concat (segments_of line t) = t <-> ~ In LF t).
Proof.
  assert (C : List.concat (segments_of line t) =
              List.filter (fun c => negb (c =? LF)%N) t).
  { unfold segments_of, split_on. destruct t as [|c r]; [reflexivity|].
    now rewrite split_on_loop_concat. }
  repeat split.
  - unfold segments_of, split_on. destruct t as [|c r]; [reflexivity|].
    now rewrite split_on_loop_join.
  - unfold segments_of, split_on. destruct t as [|c r].
    + constructor; [intros []|constructor].
    + apply split_on_loop_free. intros [].
  - exact C.
  - rewrite C. intros H. now apply forallb_differs, filter_fixed.
  - rewrite C. intros H. now apply filter_fixed, forallb_differs.
Qed.

(** C3, as the claim has it, fails on a text of two lines: the newline
    between ["a"] and ["b"] is in no segment. *)
Lemma line_segments_concat_loses_newline :
  segments_of line [97; 10; 98]%N = [[97]; [98]]%N /\
  List.concat (segments_of line [97; 10; 98]%N) <> [97; 10; 98]%N.
Proof. split; [reflexivity|discriminate]. Qed.

(** C10. On the empty text, [text], [word] and [line] give one segment, the
    empty string, and [character] gives no segment at all. *)
Theorem empty_text_segments :
  segments_of text [] = [[]] /\
  segments_of word [] = [[]] /\
  segments_of line [] = [[]] /\
  segments_of character [] = [].
Proof. repeat split; reflexivity. Qed.

(** ** Counting segments *)

Lemma last_app_right {A : Type} (l r : list A) (d : A) :
  r <> [] -> last (l ++ r) d = last r d.
Proof.
  intros Hr. induction l as [|a l IH]; [reflexivity|].
  simpl app. cbn [last]. rewrite IH.
  destruct (l ++ r) eqn:E; [|reflexivity].
  apply app_eq_nil in E as [_ E]. congruence.
Qed.

Lemma last_app_run (run rest : js_string) :
  forallb is_white_space run = true -> run <> [] ->
  is_white_space (last (run ++ rest) 0%N) = false -> rest <> [].
Proof.
  intros Hall Hne Hlast ->. rewrite app_nil_r in Hlast.
  destruct (exists_last Hne) as (run' & c & ->).
  rewrite last_last in Hlast. rewrite forallb_app in Hall.
  apply andb_prop in Hall as [_ Hc]. simpl in Hc. rewrite Hlast in Hc.
  discriminate.
Qed.

Lemma alternating_cons c d (r : js_string) :
  alternating (c :: d :: r) =
  xorb (is_white_space c) (is_white_space d) && alternating (d :: r).
Proof. reflexivity. Qed.

(** The count of the pieces of a text that ends outside white space, against
    its length: one more is possible only when it starts with white space. *)
Lemma split_loop_length tok s :
  s <> [] -> is_white_space (last s 0%N) = false ->
  let extra := if is_white_space (hd 0%N s) then 1 else 0 in
  List.length (split_loop tok s) <= extra + List.length s /\
  (List.length (split_loop tok s) = extra + List.length s <->
   alternating s = true).
Proof.
  apply (split_loop_rect (fun tok s l =>
    s <> [] -> is_white_space (last s 0%N) = false ->
    let extra := if is_white_space (hd 0%N s) then 1 else 0 in
    List.length l <= extra + List.length s /\
    (List.length l = extra + List.length s <-> alternating s = true))).
  - intros tok' H. congruence.
  - intros tok' c r Hc IH _ Hlast. cbn [hd]. rewrite Hc.
    destruct r as [|d r'].
    + rewrite split_loop_nil. simpl. split; [lia|tauto].
    + specialize (IH ltac:(discriminate) Hlast). cbn [hd] in IH.
      rewrite alternating_cons, Hc. cbn [List.length] in *.
      destruct (is_white_space d); simpl xorb; simpl andb.
      * destruct IH as [IH1 IH2]. split; [lia|]. rewrite <- IH2. lia.
      * destruct IH as [IH1 IH2]. split; [lia|]. split; [lia|discriminate].
  - intros tok' c r run rest Hc Ew IH _ Hlast. cbn [hd]. rewrite Hc.
    pose proof (white_space_run_app (c :: r)) as Happ.
    pose proof (white_space_run_all (c :: r)) as Hall.
    pose proof (white_space_run_rest (c :: r)) as Hrest.
    rewrite Ew in Happ, Hall, Hrest. simpl fst in *. simpl snd in *.
    rewrite <- Happ in Hlast |- *.
    assert (Hne : rest <> []).
    { apply (last_app_run (c :: run) rest Hall); [discriminate|exact Hlast]. }
    assert (Hlast' : is_white_space (last rest 0%N) = false).
    { rewrite last_app_right in Hlast by exact Hne. exact Hlast. }
    specialize (IH Hne Hlast'). rewrite Hrest in IH. simpl in IH.
    destruct IH as [IH1 IH2].
    destruct rest as [|d rest']; [congruence|]. simpl in Hrest.
    cbn [List.length]. rewrite length_app. cbn [List.length] in *.
    destruct run as [|c' run'].
    + cbn [app]. rewrite alternating_cons, Hc, Hrest. simpl xorb. simpl andb.
      cbn [List.length]. split; [lia|]. rewrite <- IH2. lia.
    + cbn [app]. rewrite alternating_cons, Hc.
      simpl in Hall. rewrite Hc in Hall. simpl in Hall.
      apply andb_prop in Hall as [Hc' _]. rewrite Hc'. simpl xorb. simpl andb.
      cbn [List.length]. split; [lia|]. split; [lia|discriminate].
Qed.

(** C8, as the code has it. On a non-empty text that neither starts nor ends
    with white space, going from [word] to [character] never lowers the
    segment count; the count stays the same exactly when white space and
    other code units alternate one by one (a single character that is not
    white space is the least case), and it grows otherwise. *)
Theorem word_to_character_count (t : js_string) :
  t <> [] ->
  is_white_space (hd 0%N t) = false ->
  is_white_space (last t 0%N) = false ->
  List.length (segments_of word t) <= List.length (segments_of character t) /\
  (List.length (segments_of word t) = List.length (segments_of character t)
   <-> alternating t = true).
Proof.
  intros Hne Hhd Hlast.
  pose proof (split_loop_length [] t Hne Hlast) as H. rewrite Hhd in H.
  simpl in H. unfold segments_of, split_white_space, split_code_units.
  rewrite length_map. destruct t as [|c r]; [congruence|]. exact H.
Qed.

Lemma word_to_character_count_witness :
  List.length (segments_of word (js "a b"))
    <= List.length (segments_of character (js "a b")) /\
  (List.length (segments_of word (js "a b"))
     = List.length (segments_of character (js "a b"))
   <-> alternating (js "a b") = true).
Proof.
  apply (word_to_character_count (js "a b"));
    [discriminate|reflexivity|reflexivity].
Defined.

(** C8, as the claim has it, fails on a text with a space at its end: ["a "]
    has the three word segments ["a"], [" "], [""] and two characters. *)
Lemma word_to_character_count_drops :
  segments_of word (js "a ") = [js "a"; js " "; js ""] /\
  ~ (List.length (segments_of word (js "a "))
       < List.length (segments_of character (js "a ")) \/
     (List.length (js "a ") = 1 /\
      List.length (segments_of word (js "a "))
        = List.length (segments_of character (js "a ")))).
Proof.
  split; [reflexivity|]. vm_compute. intros [H|[H _]]; [lia|discriminate].
Qed.

(** ** The rendered tree *)

Lemma map_map_indexed {A B C : Type} (g : B -> C) (f : A -> Z -> B) i l :
  List.map g (map_indexed f i l) = map_indexed (fun a k => g (f a k)) i l.
Proof.
  revert i. induction l as [|a r IH]; intros i; simpl; [reflexivity|].
  now rewrite IH.
Qed.

Lemma map_indexed_by_index {A C : Type} (h : Z -> C) i (l : list A) :
  map_indexed (fun _ k => h k) i l =
  List.map (fun k => h (i + Z.of_nat k)%Z) (seq 0 (List.length l)).
Proof.
  revert i. induction l as [|a r IH]; intros i; [reflexivity|].
  cbn [map_indexed List.length seq List.map]. f_equal.
  - f_equal. lia.
  - rewrite IH, <- seq_shift, map_map. apply map_ext. intros k.
    f_equal. lia.
Qed.

Lemma map_indexed_by_element {A C : Type} (h : A -> C) i (l : list A) :
  map_indexed (fun a _ => h a) i l = List.map h l.
Proof.
  revert i. induction l as [|a r IH]; intros i; simpl; [reflexivity|].
  now rewrite IH.
Qed.

Lemma rev_seq n : rev (seq 0 n) = List.map (fun i => n - i - 1) (seq 0 n).
Proof.
  induction n as [|n IH]; [reflexivity|].
  rewrite seq_S at 1. rewrite rev_app_distr.
  cbn [rev app plus seq List.map]. f_equal; try lia.
  rewrite IH, <- seq_shift, map_map. apply map_ext. intros k. lia.
Qed.

(** C4. The segment at index [i] out of [n] is given the entry offset
    [i * s] and the exit offset [(n - i - 1) * s], [s] being the effective
    stagger interval: the entry offsets are [0, s, ..., (n-1) s] in the order
    of the segments and the exit offsets are the same list reversed.
    ["Hello world"] by [word] has the segments ["Hello"], [" "], ["world"]
    with the entry offsets [0], [0.05], [0.1]. *)
Theorem stagger_offsets (props : TextAnimateProps) :
  let segments := segments_of (effective_by props) (children props) in
  let n := List.length segments in
  let s := effective_staggerChildren props in
  let spans := el_children (TextAnimate props) in
  let entries := List.map (fun sp => entryStaggerDelay (span_custom sp)) spans in
  let exits := List.map (fun sp => exitStaggerDelay (span_custom sp)) spans in
  List.map span_children spans = segments /\
  entries =
    List.map (fun i => Some (number_of_index (Z.of_nat i) * s)%float)
      (seq 0 n) /\
  exits =
    List.map
      (fun i => Some (number_of_index (Z.of_nat n - Z.of_nat i - 1) * s)%float)
      (seq 0 n) /\
  exits = rev entries /\
  List.map (fun sp => (span_children sp, entryStaggerDelay (span_custom sp)))
    (el_children
       (TextAnimate
          (set_animation (Some fadeIn)
             (set_by (Some word) (text_only (js "Hello world")))))) =
  [(js "Hello", Some 0%float); (js " ", Some 0.05%float);
   (js "world", Some 0.1%float)].
Proof.
  intros segments n s spans entries exits.
  assert (E1 : entries =
    List.map (fun i => Some (number_of_index (Z.of_nat i) * s)%float)
      (seq 0 n)).
  { subst entries spans. unfold TextAnimate. cbn [el_children].
    rewrite map_map_indexed. cbn [span_custom segment_custom entryStaggerDelay].
    rewrite (map_indexed_by_index
               (fun k => Some (number_of_index k * effective_staggerChildren props)%float)).
    reflexivity. }
  assert (E2 : exits =
    List.map
      (fun i => Some (number_of_index (Z.of_nat n - Z.of_nat i - 1) * s)%float)
      (seq 0 n)).
  { subst exits spans. unfold TextAnimate. cbn [el_children].
    rewrite map_map_indexed. cbn [span_custom segment_custom exitStaggerDelay].
    rewrite (map_indexed_by_index
               (fun k => Some (number_of_index
                                 (Z.of_nat (List.length
                                    (segments_of (effective_by props)
                                       (children props))) - k - 1)
                               * effective_staggerChildren props)%float)).
    reflexivity. }
  split; [|split; [|split; [|split]]].
  - subst spans. unfold TextAnimate. cbn [el_children].
    rewrite map_map_indexed. cbn [span_children].
    now rewrite map_indexed_by_element, map_id.
  - exact E1.
  - exact E2.
  - rewrite E1, E2, <- map_rev, rev_seq, map_map.
    apply map_ext_in. intros i Hi. apply in_seq in Hi.
    do 3 f_equal. lia.
  - vm_compute. reflexivity.
Qed.

(** ** The preset table *)

(** C5, on the code. With the offsets [(e, x)], the exit state of every
    preset has the delay [x] and the duration [0.3], and the show state has
    the delay [e] and the duration [0.3] for every preset but [blurInDown],
    whose show transition has neither key: there the entry offset is
    ignored. *)
Theorem item_timing_by_preset (a : AnimationVariant) (e x : number) :
  timing_of (exit (item (defaultItemAnimationVariants a))) (offsets e x)
    = (Some x, Some 0.3%float) /\
  timing_of (show (item (defaultItemAnimationVariants a))) (offsets e x)
    = match a with
      | blurInDown => (None, None)
      | _ => (Some e, Some 0.3%float)
      end.
Proof. destruct a; split; reflexivity. Qed.

(** C9. [slideLeft] starts 20 to the right and [slideRight] 20 to the left;
    both are shown at the horizontal offset 0. *)
Theorem slide_horizontal_offsets (c : Custom) :
  x (resolve (hidden (item (defaultItemAnimationVariants slideLeft))) c)
    = Some 20%float /\
  x (resolve (show (item (defaultItemAnimationVariants slideLeft))) c)
    = Some 0%float /\
  x (resolve (hidden (item (defaultItemAnimationVariants slideRight))) c)
    = Some (-20)%float /\
  x (resolve (show (item (defaultItemAnimationVariants slideRight))) c)
    = Some 0%float.
Proof. repeat split. Qed.

(** ** The parameter defaults *)

(** The offsets of the rendered spans for the interval in force. *)
Lemma rendered_offsets (props : TextAnimateProps) :
  let n := List.length (segments_of (effective_by props) (children props)) in
  List.map (fun sp => (entryStaggerDelay (span_custom sp),
                       exitStaggerDelay (span_custom sp)))
    (el_children (TextAnimate props))
  = List.map
      (fun i =>
         (Some (number_of_index (Z.of_nat i)
                * effective_staggerChildren props)%float,
          Some (number_of_index (Z.of_nat n - Z.of_nat i - 1)
                * effective_staggerChildren props)%float))
      (seq 0 n).
Proof.
  cbv zeta. unfold TextAnimate. cbn [el_children].
  rewrite map_map_indexed.
  cbn [span_custom segment_custom entryStaggerDelay exitStaggerDelay].
  rewrite (map_indexed_by_index
             (fun k =>
                (Some (number_of_index k
                       * effective_staggerChildren props)%float,
                 Some (number_of_index
                         (Z.of_nat (List.length
                            (segments_of (effective_by props)
                               (children props))) - k - 1)
                       * effective_staggerChildren props)%float))).
  reflexivity.
Qed.

(** C6. Without a stagger interval the component takes the default of the
    granularity in force, 0.05 for [word], 0.03 for [character] and 0.06 for
    [text] and [line]; a stagger interval that is given is the one used. The
    interval in force is the one the rendered spans are staggered by: the
    span at index [i] out of [n] has the offsets [i] and [n - i - 1] times
    that interval. *)
Theorem stagger_default (props : TextAnimateProps) :
  let n := List.length (segments_of (effective_by props) (children props)) in
  let rendered :=
    List.map (fun sp => (entryStaggerDelay (span_custom sp),
                         exitStaggerDelay (span_custom sp)))
      (el_children (TextAnimate props)) in
  let staggered_by (s : number) :=
    List.map
      (fun i => (Some (number_of_index (Z.of_nat i) * s)%float,
                 Some (number_of_index (Z.of_nat n - Z.of_nat i - 1) * s)%float))
      (seq 0 n) in
  (staggerChildren props = None ->
   effective_staggerChildren props =
   match effective_by props with
   | word => 0.05
   | character => 0.03
   | text | line => 0.06
   end%float /\
   rendered =
   staggered_by
     match by_ props with
     | None | Some word => 0.05
     | Some character => 0.03
     | Some text | Some line => 0.06
     end%float) /\
  (forall s, staggerChildren props = Some s ->
             effective_staggerChildren props = s /\
             rendered = staggered_by s).
Proof.
  cbv zeta. rewrite rendered_offsets.
  unfold effective_staggerChildren, effective_by. split.
  - intros ->. simpl. now destruct (by_ props) as [[]|].
  - intros s ->. split; reflexivity.
Qed.

Lemma stagger_default_witness :
  let rendered props :=
    List.map (fun sp => (entryStaggerDelay (span_custom sp),
                         exitStaggerDelay (span_custom sp)))
      (el_children (TextAnimate props)) in
  (effective_staggerChildren (set_by (Some character) (text_only (js "abc")))
     = 0.03 /\
   rendered (set_by (Some character) (text_only (js "abc")))
     = [(Some (0 * 0.03), Some (2 * 0.03));
        (Some (1 * 0.03), Some (1 * 0.03));
        (Some (2 * 0.03), Some (0 * 0.03))])%float /\
  (effective_staggerChildren (text_only (js "a b")) = 0.05 /\
   rendered (text_only (js "a b"))
     = [(Some (0 * 0.05), Some (2 * 0.05));
        (Some (1 * 0.05), Some (1 * 0.05));
        (Some (2 * 0.05), Some (0 * 0.05))])%float /\
  (effective_staggerChildren
     (set_staggerChildren (Some 0.2%float) (text_only (js "a b")))
     = 0.2 /\
   rendered (set_staggerChildren (Some 0.2%float) (text_only (js "a b")))
     = [(Some (0 * 0.2), Some (2 * 0.2));
        (Some (1 * 0.2), Some (1 * 0.2));
        (Some (2 * 0.2), Some (0 * 0.2))])%float.
Proof.
  cbv zeta. split; [|split].
  - apply (proj1 (stagger_default
                    (set_by (Some character) (text_only (js "abc"))))).
    reflexivity.
  - apply (proj1 (stagger_default (text_only (js "a b")))).
    reflexivity.
  - apply (proj2 (stagger_default
                    (set_staggerChildren (Some 0.2%float)
                       (text_only (js "a b"))))).
    reflexivity.
Defined.

(** ** Props the component does not read *)

(** The variants in use come from the preset whatever the props are. *)
Lemma rendered_variants (props : TextAnimateProps) :
  el_variants (TextAnimate props)
    = container (finalVariants (effective_animation props)) /\
  List.map span_variants (el_children (TextAnimate props))
    = List.map (fun _ => item (defaultItemAnimationVariants
                                 (effective_animation props)))
        (segments_of (effective_by props) (children props)).
Proof.
  split; [reflexivity|].
  unfold TextAnimate. cbn [el_children].
  rewrite map_map_indexed. cbn [span_variants].
  rewrite (map_indexed_by_element
             (fun _ => item (finalVariants (effective_animation props)))).
  apply map_ext. intros _. now destruct (effective_animation props).
Qed.

(** C1, on the code. The [variants] prop has no effect: the rendered tree is
    the same with and without it, and a caller who passes opacity-only
    variants with the text ["Hi"] gets the container and item descriptors of
    the default preset [fadeIn], not the ones passed. *)
Theorem custom_variants_ignored :
  (forall props v, TextAnimate (set_variants v props) = TextAnimate props) /\
  let out :=
    TextAnimate (set_variants (Some opacity_only_variants)
                   (text_only (js "Hi"))) in
  el_variants out = container (finalVariants fadeIn) /\
  List.map span_variants (el_children out)
    = [item (defaultItemAnimationVariants fadeIn)] /\
  el_variants out <> opacity_only_variants /\
  ~ In opacity_only_variants (List.map span_variants (el_children out)).
Proof.
  split; [reflexivity|]. cbv zeta.
  split; [reflexivity|]. split; [reflexivity|]. split.
  - intros H. apply (f_equal hidden) in H. vm_compute in H.
    discriminate H.
  - intros [H|[]]. apply (f_equal hidden) in H. vm_compute in H.
    discriminate H.
Qed.

(** C7, on the code. The [duration] prop has no effect: the rendered tree is
    the same with and without it, and with [duration] 1 on the text ["Hi"]
    the show and exit transitions of the segment last 0.3, the duration
    written in the preset. *)
Theorem duration_ignored :
  (forall props d, TextAnimate (set_duration d props) = TextAnimate props) /\
  let out := TextAnimate (set_duration (Some 1%float) (text_only (js "Hi"))) in
  List.map (fun sp => snd (timing_of (show (span_variants sp)) (span_custom sp)))
    (el_children out) = [Some 0.3%float] /\
  List.map (fun sp => snd (timing_of (exit (span_variants sp)) (span_custom sp)))
    (el_children out) = [Some 0.3%float] /\
  Some 0.3%float <> Some 1%float.
Proof.
  split; [reflexivity|]. cbv zeta.
  split; [reflexivity|]. split; [reflexivity|].
  intros H.
  apply (f_equal (fun o => match o with
                           | Some f => PrimFloat.ltb f 0.5%float
                           | None => false
                           end)) in H.
  vm_compute in H. discriminate H.
Qed.

(** * Further properties of the segmenter *)

Lemma split_on_loop_length sep tok s :
  List.length (split_on_loop sep tok s) = occurrences sep s + 1.
Proof.
  unfold occurrences. revert tok.
  induction s as [|c r IH]; intros tok; simpl; [reflexivity|].
  destruct (c =? sep)%N; simpl; now rewrite IH.
Qed.

Lemma split_on_loop_single sep tok s :
  ~ In sep s -> split_on_loop sep tok s = [tok ++ s].
Proof.
  revert tok. induction s as [|c r IH]; intros tok Hs; simpl.
  - now rewrite app_nil_r.
  - destruct (c =? sep)%N eqn:E.
    + apply N.eqb_eq in E. subst c. exfalso. apply Hs. now left.
    + rewrite IH, <- app_assoc; [reflexivity|].
      intros Hin. apply Hs. now right.
Qed.

(** X1. A text with [k] newlines has [k + 1] line segments; it has one line
    segment, the text itself, exactly when it has no newline. *)
Theorem line_segment_count (t : js_string) :
  List.length (segments_of line t) = occurrences LF t + 1 /\
  (segments_of line t = [t] <-> ~ In LF t).
Proof.
  split.
  - unfold segments_of, split_on. destruct t as [|c r]; [reflexivity|].
    apply split_on_loop_length.
  - split.
    + intros H.
      assert (F : Forall (fun piece => ~ In LF piece) (segments_of line t)).
      { unfold segments_of, split_on. destruct t as [|c r].
        - constructor; [intros []|constructor].
        - apply split_on_loop_free. intros []. }
      rewrite H in F. now inversion F.
    + intros H. unfold segments_of, split_on.
      destruct t as [|c r]; [reflexivity|].
      now rewrite split_on_loop_single.
Qed.

(** X2. By [character] a text of [n] code units has [n] segments, each of one
    code unit, and the segments in order spell the text. *)
Theorem character_segments (t : js_string) :
  List.length (segments_of character t) = List.length t /\
  Forall (fun piece => List.length piece = 1) (segments_of character t) /\
  List.concat (segments_of character t) = t.
Proof.
  unfold segments_of, split_code_units. split; [apply length_map|]. split.
  - apply Forall_forall. intros piece Hin.
    apply in_map_iff in Hin as (c & <- & _). reflexivity.
  - induction t as [|c r IH]; simpl; [reflexivity|]. now rewrite IH.
Qed.

Lemma white_space_runs_inside run rest :
  forallb is_white_space run = true ->
  is_white_space (hd 0%N rest) = false ->
  white_space_runs true (run ++ rest) = white_space_runs false rest.
Proof.
  intros Hall Hrest. induction run as [|c run IH]; simpl.
  - destruct rest as [|d rest]; [reflexivity|]. simpl in *.
    now rewrite Hrest.
  - simpl in Hall. apply andb_prop in Hall as [Hc Hall].
    rewrite Hc. simpl. now apply IH.
Qed.

Lemma split_loop_count tok s :
  List.length (split_loop tok s) = 2 * white_space_runs false s + 1.
Proof.
  apply (split_loop_rect (fun tok s l =>
    List.length l = 2 * white_space_runs false s + 1)).
  - reflexivity.
  - intros tok' c r Hc IH. rewrite IH. simpl. rewrite Hc. reflexivity.
  - intros tok' c r run rest Hc Ew IH.
    pose proof (white_space_run_app (c :: r)) as Happ.
    pose proof (white_space_run_all (c :: r)) as Hall.
    pose proof (white_space_run_rest (c :: r)) as Hrest.
    rewrite Ew in Happ, Hall, Hrest. simpl fst in *. simpl snd in *.
    rewrite <- Happ. cbn [List.length]. rewrite IH.
    cbn [app white_space_runs]. rewrite Hc. simpl andb.
    simpl in Hall. rewrite Hc in Hall. simpl in Hall.
    rewrite (white_space_runs_inside run rest Hall Hrest). lia.
Qed.

(** X3. A text with [k] maximal runs of white space has [2 k + 1] word
    segments; the number of word segments is odd whatever the text. *)
Theorem word_segment_count (t : js_string) :
  List.length (segments_of word t) = 2 * white_space_runs false t + 1 /\
  Nat.odd (List.length (segments_of word t)) = true.
Proof.
  assert (E : List.length (segments_of word t)
              = 2 * white_space_runs false t + 1).
  { unfold segments_of, split_white_space.
    destruct t as [|c r]; [reflexivity|]. apply split_loop_count. }
  split; [exact E|]. rewrite E, Nat.add_comm, Nat.odd_add_mul_2.
  reflexivity.
Qed.

Lemma split_loop_hd tok s :
  hd [] (split_loop tok s)
  = tok ++ take_while (fun c => negb (is_white_space c)) s.
Proof.
  apply (split_loop_rect (fun tok s l =>
    hd [] l = tok ++ take_while (fun c => negb (is_white_space c)) s)).
  - intros tok'. simpl. now rewrite app_nil_r.
  - intros tok' c r Hc IH. rewrite IH. simpl. rewrite Hc. simpl.
    now rewrite <- app_assoc.
  - intros tok' c r run rest Hc _ _. simpl. rewrite Hc. simpl.
    now rewrite app_nil_r.
Qed.

Lemma split_loop_last tok s :
  last (split_loop tok s) [] = [] <->
  (tok = [] /\ s = []) \/ (s <> [] /\ is_white_space (last s 0%N) = true).
Proof.
  apply (split_loop_rect (fun tok s l =>
    last l [] = [] <->
    (tok = [] /\ s = []) \/ (s <> [] /\ is_white_space (last s 0%N) = true))).
  - intros tok'. simpl. split.
    + intros ->. now left.
    + intros [[H _]|[H _]]; congruence.
  - intros tok' c r Hc IH. rewrite IH. split.
    + intros [[H _]|[Hr Hl]].
      * now destruct tok'.
      * right. split; [discriminate|].
        destruct r as [|d r']; [congruence|]. exact Hl.
    + intros [[_ H]|[_ Hl]]; [discriminate|].
      right. destruct r as [|d r'].
      * simpl in Hl. congruence.
      * split; [discriminate|exact Hl].
  - intros tok' c r run rest Hc Ew IH.
    pose proof (white_space_run_app (c :: r)) as Happ.
    pose proof (white_space_run_all (c :: r)) as Hall.
    rewrite Ew in Happ, Hall. simpl fst in *. simpl snd in *.
    assert (Hne : split_loop [] rest <> []).
    { destruct rest as [|d rest'].
      - rewrite split_loop_nil. discriminate.
      - rewrite split_loop_cons. destruct (is_white_space d); [discriminate|].
        intros H. apply (f_equal (@List.length _)) in H.
        rewrite split_loop_count in H. simpl in H. lia. }
    change (tok' :: (c :: run) :: split_loop [] rest)
      with ([tok'; c :: run] ++ split_loop [] rest).
    rewrite last_app_right by exact Hne. rewrite IH, <- Happ.
    split.
    + intros [[_ ->]|[Hr Hl]]; right; (split; [discriminate|]).
      * rewrite app_nil_r.
        destruct (@exists_last _ (c :: run) ltac:(discriminate))
          as (run' & d & E).
        rewrite E, last_last. rewrite E, forallb_app in Hall.
        apply andb_prop in Hall as [_ Hd]. simpl in Hd.
        now destruct (is_white_space d).
      * now rewrite last_app_right.
    + intros [[_ H]|[_ Hl]]; [discriminate|].
      destruct rest as [|d rest']; [now left|].
      right. split; [discriminate|].
      now rewrite last_app_right in Hl.
Qed.

(** X4. The first word segment is the text up to its first white space, and
    white space at an end of the text leaves an empty segment there: the
    first segment is empty exactly when the text is empty or starts with
    white space, the last one exactly when the text is empty or ends with
    white space. *)
Theorem word_segments_at_the_ends (t : js_string) :
  hd [] (segments_of word t)
    = take_while (fun c => negb (is_white_space c)) t /\
  (hd [] (segments_of word t) = [] <->
   t = [] \/ is_white_space (hd 0%N t) = true) /\
  (last (segments_of word t) [] = [] <->
   t = [] \/ is_white_space (last t 0%N) = true).
Proof.
  assert (E : hd [] (segments_of word t)
              = take_while (fun c => negb (is_white_space c)) t).
  { unfold segments_of, split_white_space.
    destruct t as [|c r]; [reflexivity|]. now rewrite split_loop_hd. }
  split; [exact E|]. split.
  - rewrite E. destruct t as [|c r]; simpl; [tauto|].
    destruct (is_white_space c); simpl; split; try tauto; try discriminate.
    intros [H|H]; discriminate.
  - unfold segments_of, split_white_space. destruct t as [|c r].
    + simpl. tauto.
    + rewrite split_loop_last. split.
      * intros [[_ H]|[_ H]]; [discriminate|now right].
      * intros [H|H]; [discriminate|]. right. split; [discriminate|exact H].
Qed.

Lemma split_loop_single tok s :
  no_white_space s = true -> split_loop tok s = [tok ++ s].
Proof.
  revert tok. induction s as [|c r IH]; intros tok Hs.
  - now rewrite split_loop_nil, app_nil_r.
  - simpl in Hs. apply andb_prop in Hs as [Hc Hr].
    rewrite split_loop_cons. destruct (is_white_space c); [discriminate|].
    rewrite IH, <- app_assoc by exact Hr. reflexivity.
Qed.

(** X5. A text has one word segment, the text itself, exactly when it holds
    no white space. *)
Theorem word_segments_single (t : js_string) :
  segments_of word t = [t] <-> no_white_space t = true.
Proof.
  unfold segments_of, split_white_space. split.
  - intros H. destruct t as [|c r]; [reflexivity|].
    pose proof (split_loop_shape [] (c :: r) eq_refl) as S.
    rewrite H in S. exact S.
  - intros H. destruct t as [|c r]; [reflexivity|].
    now rewrite split_loop_single.
Qed.

(** X6. The segmenter gives no segment at all only by [character] on the
    empty text; in every other case there is a segment to render. *)
Theorem segments_empty_iff (b : AnimationType) (t : js_string) :
  segments_of b t = [] <-> b = character /\ t = [].
Proof.
  split.
  - intros H. apply (f_equal (@List.length _)) in H. destruct b.
    + discriminate H.
    + unfold segments_of, split_white_space in H.
      destruct t as [|c r]; [discriminate|].
      rewrite split_loop_count in H. simpl in H. lia.
    + unfold segments_of, split_code_units in H.
      rewrite length_map in H. destruct t; [now split|discriminate].
    + unfold segments_of, split_on in H.
      destruct t as [|c r]; [discriminate|].
      rewrite split_on_loop_length in H. simpl in H. lia.
  - now intros [-> ->].
Qed.

(** * Further properties of the rendered tree *)

Lemma nth_error_map_indexed {A B : Type} (f : A -> Z -> B) i (l : list A) k :
  nth_error (map_indexed f i l) k
  = option_map (fun a => f a (i + Z.of_nat k)%Z) (nth_error l k).
Proof.
  revert i k. induction l as [|a r IH]; intros i [|k]; try reflexivity.
  - simpl. now rewrite Z.add_0_r.
  - cbn [map_indexed nth_error]. rewrite IH.
    destruct (nth_error r k); [|reflexivity]. simpl. do 2 f_equal. lia.
Qed.

Lemma in_map_indexed {A B : Type} (f : A -> Z -> B) i (l : list A) b :
  In b (map_indexed f i l) ->
  exists a j, (i <= j)%Z /\ In a l /\ b = f a j.
Proof.
  revert i. induction l as [|a r IH]; intros i; simpl; [intros []|].
  intros [<-|Hin].
  - exists a, i. repeat split; [lia|now left].
  - destruct (IH _ Hin) as (a' & j & Hj & Ha & ->).
    exists a', j. repeat split; [lia|now right].
Qed.

Lemma item_finalVariants (a : AnimationVariant) :
  item (finalVariants a) = item (defaultItemAnimationVariants a).
Proof. now destruct a. Qed.

Lemma container_finalVariants (a : AnimationVariant) :
  container (finalVariants a) =
  {| hidden := hidden defaultContainerVariants;
     show := Resolver (fun c =>
       with_transition no_target
         (delay_when (custom_delay c) "beforeChildren"));
     exit := Resolver (fun c =>
       with_transition no_target
         (delay_when (custom_exitDelay c) "afterChildren")) |}.
Proof. now destruct a. Qed.

Lemma rendered_segments (props : TextAnimateProps) :
  List.map span_children (el_children (TextAnimate props))
  = segments_of (effective_by props) (children props).
Proof.
  unfold TextAnimate. cbn [el_children].
  rewrite map_map_indexed. cbn [span_children].
  now rewrite map_indexed_by_element, map_id.
Qed.

(** X7. The spans carry the text: by [text], [word] and [character] the
    texts of the rendered spans, in order, concatenate to [children]; by
    [line] they give [children] back when joined with newlines. *)
Theorem rendered_text (props : TextAnimateProps) :
  let texts := List.map span_children (el_children (TextAnimate props)) in
  match effective_by props with
  | line => join LF texts = children props
  | _ => List.concat texts = children props
  end.
Proof.
  cbv zeta. rewrite rendered_segments.
  destruct (effective_by props); unfold segments_of.
  - simpl. apply app_nil_r.
  - unfold split_white_space. destruct (children props) as [|c r];
      [reflexivity|]. now rewrite split_loop_concat.
  - unfold split_code_units. induction (children props) as [|c r IH];
      simpl; [reflexivity|]. now rewrite IH.
  - unfold split_on. destruct (children props) as [|c r]; [reflexivity|].
    now rewrite split_on_loop_join.
Qed.

(** X8. The container is resolved with the [custom] it receives. When the
    caller passes no [custom] of its own among the rest of the props, that is
    [{delay, exitDelay}]: the show transition has the delay [delay] (0 when
    omitted) and waits before the children, the exit transition has the
    delay [exitDelay] (0 when omitted) and waits after the children. A
    [custom] that the caller passes is spread after the one the component
    writes and replaces it: the two delays are then those of its [delay] and
    [exitDelay] keys, whatever the props of these names are. In both cases
    neither transition has a duration. *)
Theorem container_timing (props : TextAnimateProps) :
  let out := TextAnimate props in
  let timing (d : option number) (w : string) :=
    Some {| t_delay := d; t_duration := None; t_when := Some w;
            t_y := None; t_opacity := None; t_filter := None;
            t_scale := None |} in
  let shown := transition (resolve (show (el_variants out))
                             (received_custom out)) in
  let left := transition (resolve (exit (el_variants out))
                            (received_custom out)) in
  (rest_custom (rest_props props) = None ->
   shown = timing (Some (or_default (delay props) 0%float)) "beforeChildren"%string
   /\
   left = timing (Some (or_default (exitDelay props) 0%float)) "afterChildren"%string)
  /\
  (forall c, rest_custom (rest_props props) = Some c ->
   shown = timing (custom_delay c) "beforeChildren"%string /\
   left = timing (custom_exitDelay c) "afterChildren"%string).
Proof.
  cbv zeta. unfold received_custom, TextAnimate.
  cbn [el_variants el_custom el_rest].
  rewrite container_finalVariants. split.
  - intros ->. split; reflexivity.
  - intros c ->. split; reflexivity.
Qed.

Lemma container_timing_witness :
  let timing (d : option number) (w : string) :=
    Some {| t_delay := d; t_duration := None; t_when := Some w;
            t_y := None; t_opacity := None; t_filter := None;
            t_scale := None |} in
  let timings props :=
    (transition (resolve (show (el_variants (TextAnimate props)))
                   (received_custom (TextAnimate props))),
     transition (resolve (exit (el_variants (TextAnimate props)))
                   (received_custom (TextAnimate props)))) in
  timings (props_with_delay (Some 1%float) None (text_only (js "Hi")))
    = (timing (Some 1%float) "beforeChildren"%string,
       timing (Some 0%float) "afterChildren"%string) /\
  timings (props_with_delay (Some 1%float)
             (Some {| custom_delay := Some 9%float; custom_exitDelay := None;
                      entryStaggerDelay := None; exitStaggerDelay := None |})
             (text_only (js "Hi")))
    = (timing (Some 9%float) "beforeChildren"%string, timing None "afterChildren"%string).
Proof.
  cbv zeta. split.
  - destruct (proj1 (container_timing
                       (props_with_delay (Some 1%float) None
                          (text_only (js "Hi")))) eq_refl) as [S L].
    now rewrite S, L.
  - destruct (proj2 (container_timing
                       (props_with_delay (Some 1%float)
                          (Some {| custom_delay := Some 9%float;
                                   custom_exitDelay := None;
                                   entryStaggerDelay := None;
                                   exitStaggerDelay := None |})
                          (text_only (js "Hi")))) _ eq_refl) as [S L].
    now rewrite S, L.
Defined.

(** X9. The rendered container starts at opacity 1 and its show and exit
    states set no visual key, only a transition: the opacity 1 and 0 that
    the resolvers of the preset's container return are not carried over
    when the component rebuilds the two states. *)
Theorem container_sets_no_visual_key (props : TextAnimateProps) (c : Custom) :
  let v := el_variants (TextAnimate props) in
  let preset := container (defaultItemAnimationVariants
                             (effective_animation props)) in
  opacity (resolve (hidden v) c) = Some 1%float /\
  opacity (resolve (show v) c) = None /\
  opacity (resolve (exit v) c) = None /\
  moved_keys (resolve (show v) c) = [false; false; false; false] /\
  moved_keys (resolve (exit v) c) = [false; false; false; false] /\
  opacity (resolve (show preset) c) = Some 1%float /\
  opacity (resolve (exit preset) c) = Some 0%float.
Proof.
  cbv zeta. unfold TextAnimate. cbn [el_variants].
  rewrite container_finalVariants.
  destruct (effective_animation props); repeat split.
Qed.

(** X10. The opacity-only fallback descriptors are never rendered: whatever
    the props, the container's variants are not [defaultContainerVariants]
    and no span has [defaultItemVariants]. *)
Theorem fallback_never_rendered (props : TextAnimateProps) :
  el_variants (TextAnimate props) <> defaultContainerVariants /\
  Forall (fun sp => span_variants sp <> defaultItemVariants)
    (el_children (TextAnimate props)).
Proof.
  split.
  - unfold TextAnimate. cbn [el_variants]. rewrite container_finalVariants.
    intros H.
    apply (f_equal (fun v => opacity (resolve (show v) (offsets 0%float 0%float)))) in H.
    discriminate H.
  - apply Forall_forall. intros sp Hin.
    unfold TextAnimate in Hin. cbn [el_children] in Hin.
    apply in_map_indexed in Hin as (seg & j & _ & _ & ->).
    cbn [span_variants]. rewrite item_finalVariants. intros H.
    apply (f_equal (fun v => moved_keys (resolve (hidden v) (offsets 0%float 0%float))))
      in H.
    destruct (effective_animation props); discriminate H.
Qed.

(** X11. The span at position [k] carries the segment at position [k]: its
    key holds that segment and [k], its offsets are those of index [k], and
    its classes are the layout class of the granularity and the value of
    [segmentClassName], called with the segment and [k] when it is a
    function. *)
Theorem span_at_index (props : TextAnimateProps) (k : nat) :
  let b := effective_by props in
  let segments := segments_of b (children props) in
  nth_error (el_children (TextAnimate props)) k
  = option_map
      (fun segment =>
         {| span_key := (b, segment, Z.of_nat k);
            span_variants :=
              item (defaultItemAnimationVariants (effective_animation props));
            span_custom :=
              segment_custom (effective_staggerChildren props)
                (Z.of_nat (List.length segments)) (Z.of_nat k);
            span_className :=
              segment_classes b (segmentClassName props) segment (Z.of_nat k);
            span_children := segment |})
      (nth_error segments k).
Proof.
  cbv zeta. unfold TextAnimate. cbn [el_children].
  rewrite nth_error_map_indexed, item_finalVariants. reflexivity.
Qed.

(** ** Keys *)

Lemma js_injective (s s' : string) : js s = js s' -> s = s'.
Proof.
  revert s'. induction s as [|a s IH]; intros [|a' s']; simpl;
    try discriminate; [reflexivity|].
  unfold js in *. simpl. intros [= Ha Hs]. f_equal.
  - rewrite <- (ascii_N_embedding a), <- (ascii_N_embedding a').
    now rewrite Ha.
  - now apply IH.
Qed.

Lemma index_to_string_injective (i j : Z) :
  (0 <= i)%Z -> (0 <= j)%Z -> index_to_string i = index_to_string j -> i = j.
Proof.
  intros Hi Hj H. unfold index_to_string in H. apply js_injective in H.
  apply (f_equal DecimalString.NilEmpty.uint_of_string) in H.
  rewrite !DecimalString.NilEmpty.usu in H. injection H as H.
  apply DecimalN.Unsigned.to_uint_inj in H. now apply Z2N.inj.
Qed.

Lemma digits_without_hyphen (d : Decimal.uint) :
  ~ In HYPHEN (js (DecimalString.NilEmpty.string_of_uint d)).
Proof.
  unfold js.
  induction d; simpl; intros H; try (destruct H as [H|H];
    [discriminate H|now apply IHd]). exact H.
Qed.

(** What stands before the first separator, and what stands after it. *)
Lemma split_at_first {A : Type} (sep : A) (a b u v : list A) :
  ~ In sep a -> ~ In sep b ->
  a ++ sep :: u = b ++ sep :: v -> a = b.
Proof.
  revert b. induction a as [|h a IH]; intros [|h' b] Ha Hb H;
    simpl in H; try reflexivity.
  - injection H as H _. subst h'. exfalso. apply Hb. now left.
  - injection H as H _. subst h. exfalso. apply Ha. now left.
  - injection H as -> H. f_equal. apply IH with (3 := H).
    + intros Hin. apply Ha. now right.
    + intros Hin. apply Hb. now right.
Qed.

Lemma split_at_last {A : Type} (sep : A) (a b u v : list A) :
  ~ In sep a -> ~ In sep b ->
  u ++ sep :: a = v ++ sep :: b -> a = b.
Proof.
  intros Ha Hb H. apply (f_equal (@rev A)) in H.
  rewrite !rev_app_distr in H. simpl in H. rewrite <- !app_assoc in H.
  simpl in H. apply split_at_first in H.
  - rewrite <- (rev_involutive a), <- (rev_involutive b). now rewrite H.
  - now rewrite <- in_rev.
  - now rewrite <- in_rev.
Qed.

Lemma key_string_index b b' segment segment' (i j : Z) :
  (0 <= i)%Z -> (0 <= j)%Z ->
  key_string (b, segment, i) = key_string (b', segment', j) -> i = j.
Proof.
  intros Hi Hj H. unfold key_string in H.
  change (js (animation_type_name b) ++ HYPHEN :: segment
            ++ HYPHEN :: index_to_string i)
    with (js (animation_type_name b) ++ (HYPHEN :: segment)
            ++ HYPHEN :: index_to_string i) in H.
  change (js (animation_type_name b') ++ HYPHEN :: segment'
            ++ HYPHEN :: index_to_string j)
    with (js (animation_type_name b') ++ (HYPHEN :: segment')
            ++ HYPHEN :: index_to_string j) in H.
  rewrite !app_assoc in H. apply split_at_last in H.
  - now apply index_to_string_injective.
  - apply digits_without_hyphen.
  - apply digits_without_hyphen.
Qed.

Lemma keys_distinct_from (b : AnimationType) (l : list js_string) (i : Z) :
  (0 <= i)%Z ->
  NoDup (map_indexed (fun segment k => key_string (b, segment, k)) i l).
Proof.
  revert i. induction l as [|seg l IH]; intros i Hi; simpl.
  - constructor.
  - constructor.
    + intros Hin. apply in_map_indexed in Hin as (seg' & j & Hj & _ & E).
      apply key_string_index in E; lia.
    + apply IH. lia.
Qed.

(** X12. The keys of the spans of one rendering, written out as the template
    literal writes them, are pairwise distinct, also when a segment occurs
    more than once or holds hyphens and digits itself. *)
Theorem span_keys_distinct (props : TextAnimateProps) :
  NoDup (List.map (fun sp => key_string (span_key sp))
           (el_children (TextAnimate props))).
Proof.
  unfold TextAnimate. cbn [el_children].
  rewrite map_map_indexed. cbn [span_key].
  apply keys_distinct_from. lia.
Qed.

(** * Further properties of the preset table *)

(** X13. Every preset fades: the segment is hidden at opacity 0, shown at
    opacity 1 and leaves at opacity 0. The three states set the same keys,
    and the shown state is the segment at rest: no offset, scale 1, no
    blur. *)
Theorem presets_fade_to_rest (a : AnimationVariant) (c : Custom) :
  let states := item (defaultItemAnimationVariants a) in
  let h := resolve (hidden states) c in
  let s := resolve (show states) c in
  let e := resolve (exit states) c in
  (opacity h = Some 0 /\ opacity s = Some 1 /\ opacity e = Some 0)%float /\
  (moved_keys s = moved_keys h /\ moved_keys e = moved_keys h) /\
  (or_default (x s) 0 = 0 /\ or_default (y s) 0 = 0 /\
   or_default (scale s) 1 = 1)%float /\
  or_default (filter s) "blur(0px)"%string = "blur(0px)"%string.
Proof. destruct a; repeat split. Qed.

(** X14. A segment leaves where it came from, with the values of its hidden
    state, for the fade, blur and scale presets; the four slide presets keep
    moving instead, and leave on the side opposite to the one they came
    from. *)
Theorem exit_against_hidden (a : AnimationVariant) (c : Custom) :
  let states := item (defaultItemAnimationVariants a) in
  let h := resolve (hidden states) c in
  let e := resolve (exit states) c in
  match a with
  | slideUp | slideDown =>
      y e = option_map PrimFloat.opp (y h) /\ x e = x h
  | slideLeft | slideRight =>
      x e = option_map PrimFloat.opp (x h) /\ y e = y h
  | _ => x e = x h /\ y e = y h
  end /\
  opacity e = opacity h /\ scale e = scale h /\ filter e = filter h.
Proof. destruct a; repeat split. Qed.

(** X15. With the default stagger interval of any granularity the wave has
    no lead: the first segment enters with the offset 0 and the last
    segment leaves with the offset 0. *)
Theorem default_stagger_ends (props : TextAnimateProps) :
  staggerChildren props = None ->
  let spans := el_children (TextAnimate props) in
  (forall sp, nth_error spans 0 = Some sp ->
              entryStaggerDelay (span_custom sp) = Some 0%float) /\
  (forall sp, nth_error spans (List.length spans - 1) = Some sp ->
              exitStaggerDelay (span_custom sp) = Some 0%float).
Proof.
  intros Hs. cbv zeta.
  assert (Hlen : List.length (el_children (TextAnimate props))
                 = List.length (segments_of (effective_by props)
                                  (children props))).
  { now rewrite <- rendered_segments, length_map. }
  assert (Hzero : (number_of_index 0 * effective_staggerChildren props
                   = 0)%float).
  { unfold effective_staggerChildren. rewrite Hs. simpl.
    now destruct (effective_by props). }
  rewrite Hlen.
  set (segments := segments_of (effective_by props) (children props)) in *.
  split; intros sp H.
  - unfold TextAnimate in H. cbn [el_children] in H.
    rewrite nth_error_map_indexed in H. fold segments in H.
    destruct (nth_error segments 0); [|discriminate H].
    injection H as <-. cbn [span_custom segment_custom entryStaggerDelay].
    f_equal. exact Hzero.
  - unfold TextAnimate in H. cbn [el_children] in H.
    rewrite nth_error_map_indexed in H. fold segments in H.
    destruct (nth_error segments (List.length segments - 1)) eqn:E;
      [|discriminate H].
    injection H as <-. cbn [span_custom segment_custom exitStaggerDelay].
    assert (Hn : List.length segments <> 0).
    { intros Hn. apply length_zero_iff_nil in Hn. rewrite Hn in E.
      discriminate E. }
    f_equal. rewrite <- Hzero. do 2 f_equal. lia.
Qed.

Lemma default_stagger_ends_witness :
  let span_of segment i :=
    {| span_key := (word, segment, i);
       span_variants := item (defaultItemAnimationVariants fadeIn);
       span_custom := segment_custom 0.05%float 3 i;
       span_className := [Some "inline-block whitespace-pre"%string; None];
       span_children := segment |} in
  el_children (TextAnimate (text_only (js "a b")))
    = [span_of (js "a") 0%Z; span_of (js " ") 1%Z; span_of (js "b") 2%Z] /\
  entryStaggerDelay (span_custom (span_of (js "a") 0%Z)) = Some 0%float /\
  exitStaggerDelay (span_custom (span_of (js "b") 2%Z)) = Some 0%float.
Proof.
  cbv zeta. split; [reflexivity|].
  pose proof (default_stagger_ends (text_only (js "a b")) eq_refl) as [F L].
  split; [apply F|apply L]; reflexivity.
Defined.
